(** * The note-preview synthesizer of composer (synth.hh)

    A shallow embedding of [struct SynthNote] and [class Synth]: the WAV
    header writer, the tone renderer [createBuffer], the schedule pass
    [calcNext], the foreground entry points [tick] and [stop], and the
    worker loop [run].

    Numbers.  A C++ [double] is modelled by the rational it denotes ([Q]);
    arithmetic and comparisons are exact, so rounding, NaN and the
    infinities are outside the model.  Fixed-width integers are [Z] with the
    wrap-around written where the source can wrap.  A byte is a [Z] in
    [0, 256); a [QByteArray] is a list of bytes.

    Threads.  The two threads are a transition system.  [tick] and [stop]
    hold the mutex and are single steps.  The worker moves from one [place]
    of [run] to the next: its places are cut at every read of [m_quit], at
    the wait and at the emission, so that a foreground call can fall
    between the test of the flag and what follows it; a schedule pass, and
    the three statements that close the onset branch, are one step each.

    Collaborators.  [std::sin] and [MusicalScale::getNoteFreq] (notes.hh is
    not part of this file) are parameters of the development, and so is the
    platform's [ULONG_MAX]. *)

From Stdlib Require Import ZArith QArith Qround List Bool Lia Lqa.
From Stdlib Require Import String Ascii.
Import ListNotations.

Local Open Scope Z_scope.

(** ** Raw bytes *)

Definition byte := Z.
Definition QByteArray := list byte.

(** [out.write("RIFF", 4)]: the characters of a literal, as bytes. *)
Definition chars (s : string) : list byte :=
  map (fun c => Z.of_N (N_of_ascii c)) (list_ascii_of_string s).

(** [out.write] of the object representation of [tmp] on a little-endian
    host: the [n] low-order bytes of [tmp], least significant first.  Floor
    division and modulus on [Z] give the two's-complement bytes of a
    negative [tmp] as well. *)
Fixpoint raw_bytes (n : nat) (tmp : Z) : list byte :=
  match n with
  | O => []
  | S k => (tmp mod 256) :: raw_bytes k (tmp / 256)
  end.

(** The unsigned value a little-endian byte string stands for. *)
Fixpoint le_value (bs : list byte) : Z :=
  match bs with
  | [] => 0
  | b :: rest => b + 256 * le_value rest
  end.

(** Bytes [off .. off+len-1] of a buffer. *)
Definition slice (off len : nat) (bs : list byte) : list byte :=
  firstn len (skipn off bs).

(** [unsigned] arithmetic wraps modulo 2^32. *)
Definition unsigned (x : Z) : Z := x mod 2 ^ 32.

(** Conversion of a [double] to an integer type truncates toward zero. *)
Definition Qtrunc (x : Q) : Z := Z.quot (Qnum x) (Z.pos (Qden x)).

(** ** WAV header writer (synth.hh, lines 147-165) *)

Definition writeWavHeader (bits ch sr samples : Z) : list byte :=
  let bps := unsigned (ch * bits) / 8 in           (* Bytes per sample *)
  let datasize := unsigned (bps * samples) in
  let size := unsigned (datasize + 0x2C) in
  chars "RIFF"                                     (* RIFF chunk *)
  ++ raw_bytes 4 (unsigned (size - 0x8))           (* RIFF chunk size *)
  ++ chars "WAVEfmt "                              (* WAVEfmt header *)
  ++ raw_bytes 4 0x00000010                        (* Always 0x10 *)
  ++ raw_bytes 2 0x0001                            (* Always 1 *)
  ++ raw_bytes 2 ch                                (* Number of channels *)
  ++ raw_bytes 4 sr                                (* Sample rate *)
  ++ raw_bytes 4 (unsigned (bps * sr))             (* Bytes per second *)
  ++ raw_bytes 2 bps                               (* Bytes per frame *)
  ++ raw_bytes 2 bits                              (* Bits per sample *)
  ++ chars "data"                                  (* data chunk *)
  ++ raw_bytes 4 datasize.

Definition sampleRate : Z := 8000.

(** ** Data model (synth.hh, lines 26-35 and 167-177) *)

Record SynthNote := mkSynthNote {
  note : Z;        (* int note *)
  begin : Q;       (* double begin: the onset, seconds *)
  length : Q       (* double length: the duration, seconds *)
}.

Definition SynthNotes := list SynthNote.

Record Synth := mkSynth {
  m_notes : SynthNotes;                   (* Notes to synthesize *)
  m_delay : Q;                            (* Seconds until the next sound *)
  m_pos : Q;                              (* Position where we are now *)
  m_noteBegin : Q;                        (* Position of the next note *)
  m_soundData : QByteArray * QByteArray;  (* QByteArray m_soundData[2] *)
  m_curBuffer : Z;
  m_quit : bool
}.

(** The constructor value-initialises every field (line 42). *)
Definition Synth_new : Synth :=
  mkSynth [] 0%Q 0%Q 0%Q ([], []) 0 false.

Definition set_notes (v : SynthNotes) (s : Synth) : Synth :=
  mkSynth v (m_delay s) (m_pos s) (m_noteBegin s) (m_soundData s) (m_curBuffer s) (m_quit s).
Definition set_delay (v : Q) (s : Synth) : Synth :=
  mkSynth (m_notes s) v (m_pos s) (m_noteBegin s) (m_soundData s) (m_curBuffer s) (m_quit s).
Definition set_pos (v : Q) (s : Synth) : Synth :=
  mkSynth (m_notes s) (m_delay s) v (m_noteBegin s) (m_soundData s) (m_curBuffer s) (m_quit s).
Definition set_noteBegin (v : Q) (s : Synth) : Synth :=
  mkSynth (m_notes s) (m_delay s) (m_pos s) v (m_soundData s) (m_curBuffer s) (m_quit s).
Definition set_soundData (v : QByteArray * QByteArray) (s : Synth) : Synth :=
  mkSynth (m_notes s) (m_delay s) (m_pos s) (m_noteBegin s) v (m_curBuffer s) (m_quit s).
Definition set_curBuffer (v : Z) (s : Synth) : Synth :=
  mkSynth (m_notes s) (m_delay s) (m_pos s) (m_noteBegin s) (m_soundData s) v (m_quit s).
Definition set_quit (v : bool) (s : Synth) : Synth :=
  mkSynth (m_notes s) (m_delay s) (m_pos s) (m_noteBegin s) (m_soundData s) (m_curBuffer s) v.

(** [m_soundData[i]], read and written.  The index is [m_curBuffer], which
    only ever holds 0 or 1. *)
Definition slot (i : Z) (d : QByteArray * QByteArray) : QByteArray :=
  if i =? 0 then fst d else snd d.
Definition slot_put (i : Z) (v : QByteArray) (d : QByteArray * QByteArray)
  : QByteArray * QByteArray :=
  if i =? 0 then (v, snd d) else (fst d, v).

(** Comparisons of doubles, as booleans. *)
Definition Qlt_bool (x y : Q) : bool := negb (Qle_bool y x).
Definition Qne_bool (x y : Q) : bool := negb (Qeq_bool x y).

(** [std::max(a, b)] is [(a < b) ? b : a]. *)
Definition std_max (a b : Q) : Q := if Qlt_bool a b then b else a.

(** ** The observable side of the specification *)



(** A note sequence in ascending order of onset. *)
Fixpoint ascending (notes : SynthNotes) : Prop :=
  match notes with
  | [] => True
  | n :: rest => Forall (fun m => (begin n <= begin m)%Q) rest /\ ascending rest
  end.

(** No note of the sequence is upcoming at position [p]. *)
Definition all_past (p : Q) (notes : SynthNotes) : Prop :=
  Forall (fun n => (begin n < p)%Q) notes.

(** Example collaborators for closed instances: an oscillator that is the
    identity clipped to [-1, 1] (so it vanishes at 0, as the sine does), a
    scale with every pitch at concert A, the [ULONG_MAX] of a platform
    whose [long] has 32 bits (a value every [double] computation here
    represents exactly), and a short note at a given onset. *)
Definition clipped (x : Q) : Q :=
  if Qle_bool x (- (1)) then (- (1))%Q else if Qle_bool 1 x then 1%Q else x.
Definition concert_a (_ : Z) : Q := 440%Q.
Definition ULONG_MAX_32 : Z := 2 ^ 32 - 1.
Definition note_at (onset : Q) : SynthNote := mkSynthNote 0 onset (1 # 1000).

Section Collaborators.

(** [std::sin], as a function on the values of [double].  Where a result
    depends on it, what is assumed of it is that it is a function of the
    value of its argument and stays within [-1, 1]. *)
Variable sin : Q -> Q.
Hypothesis sin_comp : forall x y : Q, (x == y)%Q -> (sin x == sin y)%Q.
Hypothesis sin_range : forall x : Q, (- (1) <= sin x)%Q /\ (sin x <= 1)%Q.
(** [MusicalScale().getNoteFreq]. *)
Variable getNoteFreq : Z -> Q.
(** The platform's [ULONG_MAX]. *)
Variable ULONG_MAX : Z.

(** ** Tone renderer (synth.hh, lines 124-144) *)

Definition M_PI : Q := 3.141592653589793%Q.

(** Conversion of a [double] to [quint8]. *)
Definition quint8 (x : Q) : byte := Qtrunc x mod 256.

(** Line 134.  (The source stores the sum in a [float]; the model keeps the
    exact value.) *)
Definition fvalue (d phase : Q) : Q :=
  (d * 0.2 * sin phase + 0.2 * sin (2 * phase) + (1 - d) * 0.2 * sin (4 * phase))%Q.

(** Line 138. *)
Definition value (d phase : Q) : byte :=
  quint8 ((fvalue d phase + 1) * 0.5 * 255)%Q.

(** The loop of lines 133-140: [i] is the counter, [phase] the accumulator
    and [buf] the array built so far.  The loop test is evaluated before
    the fuel is looked at, so a result [Some] is an exit through the loop's
    own condition.  (The [size_t] counter is not wrapped: the array
    outgrows any memory long before the counter could.) *)
Fixpoint synthesize (fuel : nat) (limit d delta : Q) (i : Z) (phase : Q)
    (buf : QByteArray) : option QByteArray :=
  if Qlt_bool (inject_Z i) limit then
    match fuel with
    | O => None
    | S fuel' =>
        synthesize fuel' limit d delta (i + 1) (phase + delta)%Q
                   (buf ++ [value d phase])
    end
  else Some buf.

(** What the loop appends in [n] iterations started at [phase]. *)
Fixpoint tone (d delta phase : Q) (n : nat) : list byte :=
  match n with
  | O => []
  | S n' => value d phase :: tone d delta (phase + delta)%Q n'
  end.


(** Iterations that always suffice for the loop to leave by its test. *)
Definition enough (limit : Q) : nat := Z.to_nat (Qceiling limit).

(** Line 129: the timbre factor [d]. *)
Definition timbre (note : Z) : Q := (inject_Z (note + 1) / 13)%Q.

(** Line 135: what [phase] grows by per sample. *)
Definition phase_step (note : Z) : Q :=
  (2 * M_PI * getNoteFreq (note + 12) / inject_Z sampleRate)%Q.

(** The byte array that [createBuffer(note, length)] leaves in
    [m_soundData[m_curBuffer]]. *)
Definition renderTone (note : Z) (length : Q) : QByteArray :=
  let header :=
    writeWavHeader 8 1 sampleRate
      (unsigned (Qtrunc (length * inject_Z sampleRate))) in
  let limit := (length * inject_Z sampleRate)%Q in
  match synthesize (enough limit) limit (timbre note) (phase_step note)
          0 0%Q header with
  | Some buf => buf
  | None => header
  end.

Definition createBuffer (note : Z) (length : Q) (s : Synth) : Synth :=
  set_soundData (slot_put (m_curBuffer s) (renderTone note length) (m_soundData s)) s.

(** ** Schedule pass (synth.hh, lines 101-121) *)

(** Lines 106-109: the forward scan for the first note that is not past. *)
Fixpoint findNext (pos : Q) (notes : SynthNotes) : option SynthNote :=
  match notes with
  | [] => None
  | n :: rest => if Qlt_bool (begin n) pos then findNext pos rest else Some n
  end.

(** [elapsed] is what [timer.elapsed()] returns at line 119, in
    milliseconds. *)
Definition calcNext (elapsed : Z) (s : Synth) : Synth :=
  match findNext (m_pos s) (m_notes s) with
  | None => set_delay (inject_Z ULONG_MAX / 1000)%Q s
  | Some n =>
      let s := set_delay (begin n - m_pos s)%Q s in
      let s :=
        if Qne_bool (begin n) (m_noteBegin s) then
          (* Need to create a new buffer *)
          createBuffer (Z.rem (note n) 12) (length n) (set_noteBegin (begin n) s)
        else s in
      (* Compensate for the time spent in this function *)
      let s := set_delay (m_delay s - inject_Z elapsed / 1000)%Q s in
      if Qle_bool (m_delay s) 0.001 then set_delay 0.001%Q s else s
  end.

(** ** Foreground entry points and the worker thread (lines 50-97) *)

(** Where the worker thread stands in [run]. *)
Inductive place :=
| Idle        (* never started *)
| AtStart     (* line 71: about to run the initial schedule pass *)
| AtLoop      (* line 72: about to test [!m_quit] *)
| Locking     (* line 73: the test passed, about to lock and wait *)
| Waiting     (* line 75: blocked in [m_condition.wait] *)
| Woken       (* line 78: the wait returned true *)
| Update      (* line 79: about to run the schedule pass *)
| TimedOut    (* line 84: the wait returned false *)
| Emitting    (* lines 85-86: about to emit and flip *)
| Advancing   (* lines 92-94 *)
| Finished.   (* [run] has returned *)

Record World := mkWorld { obj : Synth; worker : place }.

(** [QThread::isRunning]. *)
Definition isRunning (p : place) : bool :=
  match p with Idle | Finished => false | _ => true end.

(** [m_condition.wakeOne]: a thread blocked in the wait returns true from
    it; a wake-up sent while nobody waits is lost. *)
Definition wakeOne (p : place) : place :=
  match p with Waiting => Woken | _ => p end.

(** Lines 50-57. *)
Definition tick (pos : Z) (notes : SynthNotes) (w : World) : World :=
  let s := set_notes notes (set_pos (inject_Z pos / 1000)%Q (obj w)) in
  if isRunning (worker w) then mkWorld s (wakeOne (worker w))
  else mkWorld s AtStart.

(** Lines 59-63. *)
Definition stop (w : World) : World :=
  mkWorld (set_quit true (obj w)) (wakeOne (worker w)).

(** The wait of line 75 is given [m_delay * 1000] milliseconds, and
    [QWaitCondition::wait] never times out when given [ULONG_MAX]. *)
Definition may_time_out (s : Synth) : bool :=
  Qtrunc (m_delay s * 1000) <? ULONG_MAX.

(** One step of the worker: the statements of [run] from one [place] to the
    next, with the buffers handed to [playBuffer] on the way.  [None] when
    the thread is not running or is blocked. *)
Definition run (elapsed : Z) (w : World) : option (World * list QByteArray) :=
  let s := obj w in
  match worker w with
  | Idle | Finished | Waiting => None
  | AtStart => Some (mkWorld (calcNext elapsed s) AtLoop, [])
  | AtLoop => Some (mkWorld s (if m_quit s then Finished else Locking), [])
  | Locking => Some (mkWorld s Waiting, [])
  | Woken => Some (mkWorld s (if m_quit s then Finished else Update), [])
  | Update => Some (mkWorld (calcNext elapsed s) AtLoop, [])
  | TimedOut => Some (mkWorld s (if m_quit s then Finished else Emitting), [])
  | Emitting =>
      Some (mkWorld (set_curBuffer ((m_curBuffer s + 1) mod 2) s) Advancing,
            [slot (m_curBuffer s) (m_soundData s)])
  | Advancing =>
      let s := calcNext elapsed (set_pos (m_pos s + 0.2)%Q s) in
      Some (mkWorld (set_delay (std_max (m_delay s) 1) s) AtLoop, [])
  end.

(** What can happen next: a foreground call, the expiry of the wait, or a
    step of the worker (with the reading of its timer). *)
Inductive action :=
| Tick (pos : Z) (notes : SynthNotes)
| Stop
| Expire
| Work (elapsed : Z).

Definition step (a : action) (w : World) : option (World * list QByteArray) :=
  match a with
  | Tick pos notes => Some (tick pos notes w, [])
  | Stop => Some (stop w, [])
  | Expire =>
      match worker w with
      | Waiting =>
          if may_time_out (obj w) then Some (mkWorld (obj w) TimedOut, [])
          else None
      | _ => None
      end
  | Work elapsed => run elapsed w
  end.

(** A schedule of actions, with every buffer emitted along it, in order. *)
Fixpoint exec (acts : list action) (w : World) : option (World * list QByteArray) :=
  match acts with
  | [] => Some (w, [])
  | a :: rest =>
      match step a w with
      | None => None
      | Some (w1, out1) =>
          match exec rest w1 with
          | None => None
          | Some (w2, out2) => Some (w2, out1 ++ out2)
          end
      end
  end.

Definition World_new : World := mkWorld Synth_new Idle.

(** ** Kinds of schedule *)

(** A foreground update and nothing else. *)
Definition is_tick (a : action) : Prop :=
  match a with Tick _ _ => True | _ => False end.


(** An update with the note list [notes] unchanged and [n] still its next
    upcoming note, or a step of the worker. *)
Definition keeps (n : SynthNote) (notes : SynthNotes) (a : action) : Prop :=
  match a with
  | Tick pos notes' =>
      notes' = notes /\ findNext (inject_Z pos / 1000)%Q notes = Some n
  | Work _ => True
  | _ => False
  end.

(** The places of the onset branch, after the wait has expired. *)
Definition in_onset (p : place) : Prop :=
  match p with TimedOut | Emitting | Advancing => True | _ => False end.


(** ** Further vocabulary *)

(** Line 29: [SynthNote::operator<]. *)
Definition operator_lt (lhs rhs : SynthNote) : bool :=
  Qlt_bool (begin lhs) (begin rhs).

(** The expiries of the wait along a schedule. *)
Definition expired (a : action) : bool :=
  match a with Expire => true | _ => false end.
Definition expiries (acts : list action) : nat :=
  List.length (filter expired acts).

(** What a buffer slot can hold: nothing yet, or one rendered tone. *)
Definition playable (b : QByteArray) : Prop :=
  b = [] \/ exists (pitch : Z) (duration : Q),
              -11 <= pitch <= 11 /\ b = renderTone pitch duration.

(** The worker has passed the expiry of a wait and not yet emitted. *)
Definition owes_emission (p : place) : nat :=
  match p with TimedOut | Emitting => 1 | _ => 0 end.

(** * Properties *)

(** ** Comparisons and conversions *)

Lemma Qlt_bool_true (x y : Q) : Qlt_bool x y = true <-> (x < y)%Q.
Proof.
  unfold Qlt_bool. rewrite negb_true_iff, <- not_true_iff_false, Qle_bool_iff.
  split; [apply Qnot_le_lt | apply Qlt_not_le].
Qed.

Lemma Qlt_bool_false (x y : Q) : Qlt_bool x y = false <-> (y <= x)%Q.
Proof.
  unfold Qlt_bool. rewrite negb_false_iff. apply Qle_bool_iff.
Qed.

Lemma Qne_bool_true (x y : Q) : Qne_bool x y = true <-> ~ (x == y)%Q.
Proof.
  unfold Qne_bool. rewrite negb_true_iff, <- not_true_iff_false, Qeq_bool_iff.
  reflexivity.
Qed.

Lemma Qne_bool_false (x y : Q) : Qne_bool x y = false <-> (x == y)%Q.
Proof.
  unfold Qne_bool. rewrite negb_false_iff. apply Qeq_bool_iff.
Qed.

Lemma std_max_lower (a b : Q) : (b <= std_max a b)%Q.
Proof.
  unfold std_max. destruct (Qlt_bool a b) eqn:E.
  - apply Qle_refl.
  - now apply Qlt_bool_false.
Qed.


Lemma Qtrunc_nonneg (x : Q) : (0 <= x)%Q -> Qtrunc x = Qfloor x.
Proof.
  destruct x as [a b]. unfold Qle, Qtrunc, Qfloor. simpl. intros H.
  apply Z.quot_div_nonneg; lia.
Qed.

Lemma Qtrunc_nonpos (x : Q) : (x <= 0)%Q -> Qtrunc x = Qceiling x.
Proof.
  destruct x as [a b]. unfold Qle, Qtrunc, Qceiling, Qfloor. simpl. intros H.
  replace a with (- - a) at 1 by lia.
  rewrite Z.quot_opp_l by lia. f_equal.
  apply Z.quot_div_nonneg; lia.
Qed.



(** An integer is below a rational exactly when it is below its ceiling. *)
Lemma below_ceiling (i : Z) (x : Q) : (inject_Z i < x)%Q <-> i < Qceiling x.
Proof.
  split; intros H.
  - rewrite Zlt_Qlt. eapply Qlt_le_trans; [exact H | apply Qle_ceiling].
  - assert (Hi : (inject_Z i <= inject_Z (Qceiling x - 1))%Q)
      by (rewrite <- Zle_Qle; lia).
    eapply Qle_lt_trans; [exact Hi | apply Qceiling_lt].
Qed.

(** ** Raw bytes *)

Lemma length_raw_bytes (n : nat) (x : Z) : List.length (raw_bytes n x) = n.
Proof. revert x. induction n; intros; simpl; [reflexivity | now rewrite IHn]. Qed.

Lemma le_value_raw_bytes (n : nat) (x : Z) :
  le_value (raw_bytes n x) = x mod 256 ^ Z.of_nat n.
Proof.
  revert x. induction n as [| n IH]; intros x.
  - simpl. now rewrite Z.mod_1_r.
  - cbn [raw_bytes le_value]. rewrite IH, Nat2Z.inj_succ, Z.pow_succ_r by lia.
    rewrite Z.rem_mul_r by lia. reflexivity.
Qed.


(** ** The header of a mono, 8-bit, 8000 Hz tone *)

Lemma writeWavHeader_length (bits ch sr samples : Z) :
  List.length (writeWavHeader bits ch sr samples) = 44%nat.
Proof.
  unfold writeWavHeader. rewrite !length_app, !length_raw_bytes. reflexivity.
Qed.


(** ** The synthesis loop *)

Lemma synthesize_tone (fuel : nat) (limit d delta : Q) :
  forall (i : Z) (phase : Q) (buf : QByteArray),
    (Z.to_nat (Qceiling limit - i) <= fuel)%nat ->
    synthesize fuel limit d delta i phase buf =
      Some (buf ++ tone d delta phase (Z.to_nat (Qceiling limit - i))).
Proof.
  induction fuel as [| fuel IH]; intros i phase buf Hfuel; cbn [synthesize];
    destruct (Qlt_bool (inject_Z i) limit) eqn:E.
  - apply Qlt_bool_true, below_ceiling in E. lia.
  - apply Qlt_bool_false in E.
    assert (~ i < Qceiling limit)
      by (rewrite <- below_ceiling; now apply Qle_not_lt).
    replace (Z.to_nat (Qceiling limit - i)) with O by lia.
    now rewrite app_nil_r.
  - apply Qlt_bool_true, below_ceiling in E.
    rewrite IH by lia.
    replace (Z.to_nat (Qceiling limit - i))
      with (S (Z.to_nat (Qceiling limit - (i + 1)))) by lia.
    cbn [tone]. now rewrite <- app_assoc.
  - apply Qlt_bool_false in E.
    assert (~ i < Qceiling limit)
      by (rewrite <- below_ceiling; now apply Qle_not_lt).
    replace (Z.to_nat (Qceiling limit - i)) with O by lia.
    now rewrite app_nil_r.
Qed.

(** More fuel than needed changes nothing: the loop leaves by its test. *)
Lemma synthesize_fuel (fuel fuel' : nat) (limit d delta : Q) (i : Z)
    (phase : Q) (buf : QByteArray) :
  (Z.to_nat (Qceiling limit - i) <= fuel)%nat -> (fuel <= fuel')%nat ->
  synthesize fuel' limit d delta i phase buf =
  synthesize fuel limit d delta i phase buf.
Proof. intros H1 H2. rewrite !synthesize_tone by lia. reflexivity. Qed.




(** What one call of [createBuffer] stores: the header, then the tone. *)
Lemma renderTone_shape (note : Z) (length : Q) :
  renderTone note length =
    writeWavHeader 8 1 sampleRate (unsigned (Qtrunc (length * inject_Z sampleRate)))
    ++ tone (timbre note) (phase_step note) 0
         (Z.to_nat (Qceiling (length * inject_Z sampleRate))).
Proof.
  unfold renderTone, enough. rewrite synthesize_tone by lia.
  now rewrite Z.sub_0_r.
Qed.


Lemma raw_bytes_4 (x : Z) :
  exists b0 b1 b2 b3, raw_bytes 4 x = [b0; b1; b2; b3].
Proof. cbn [raw_bytes]. eauto. Qed.







(** ** Sample values *)








(** ** The schedule pass *)


Lemma findNext_none (p : Q) (notes : SynthNotes) :
  findNext p notes = None <-> all_past p notes.
Proof.
  induction notes as [| m rest IH]; cbn [findNext].
  - split; [constructor | reflexivity].
  - destruct (Qlt_bool (begin m) p) eqn:E.
    + rewrite IH. split; intros H.
      * constructor; [now apply Qlt_bool_true | exact H].
      * now inversion H.
    + split; [discriminate |]. intros H. inversion H as [| ? ? Hm ?]; subst.
      apply Qlt_bool_true in Hm. congruence.
Qed.


(** The pass reads the position and the note list and leaves them, the
    active index and the shutdown flag as they are. *)
Lemma calcNext_frame (e : Z) (s : Synth) :
  m_pos (calcNext e s) = m_pos s /\
  m_notes (calcNext e s) = m_notes s /\
  m_curBuffer (calcNext e s) = m_curBuffer s /\
  m_quit (calcNext e s) = m_quit s.
Proof.
  unfold calcNext. destruct (findNext (m_pos s) (m_notes s)) as [n |]; cbn.
  - destruct (Qne_bool (begin n) (m_noteBegin s)); cbn;
      match goal with |- context [Qle_bool ?a ?b] => destruct (Qle_bool a b) end;
      cbn; auto.
  - auto.
Qed.

Lemma calcNext_none (e : Z) (s : Synth) :
  all_past (m_pos s) (m_notes s) ->
  calcNext e s = set_delay (inject_Z ULONG_MAX / 1000)%Q s.
Proof.
  intros H. apply findNext_none in H. unfold calcNext. now rewrite H.
Qed.

Lemma calcNext_same (e : Z) (s : Synth) (n : SynthNote) :
  findNext (m_pos s) (m_notes s) = Some n ->
  (begin n == m_noteBegin s)%Q ->
  m_soundData (calcNext e s) = m_soundData s /\
  m_noteBegin (calcNext e s) = m_noteBegin s.
Proof.
  intros Hn E. apply Qne_bool_false in E.
  unfold calcNext. rewrite Hn. cbn. rewrite E. cbn.
  match goal with |- context [Qle_bool ?a ?b] => destruct (Qle_bool a b) end;
    cbn; auto.
Qed.

Lemma calcNext_new (e : Z) (s : Synth) (n : SynthNote) :
  findNext (m_pos s) (m_notes s) = Some n ->
  ~ (begin n == m_noteBegin s)%Q ->
  m_soundData (calcNext e s) =
    slot_put (m_curBuffer s) (renderTone (Z.rem (note n) 12) (length n))
      (m_soundData s) /\
  m_noteBegin (calcNext e s) = begin n.
Proof.
  intros Hn E. apply Qne_bool_true in E.
  unfold calcNext. rewrite Hn. cbn. rewrite E. cbn.
  match goal with |- context [Qle_bool ?a ?b] => destruct (Qle_bool a b) end;
    cbn; auto.
Qed.

(** After a pass that found [n], the stored onset is that of [n]. *)
Lemma calcNext_noteBegin (e : Z) (s : Synth) (n : SynthNote) :
  findNext (m_pos s) (m_notes s) = Some n ->
  (m_noteBegin (calcNext e s) == begin n)%Q.
Proof.
  intros Hn. destruct (Qeq_dec (begin n) (m_noteBegin s)) as [E | E].
  - destruct (calcNext_same e s n Hn E) as [_ ->]. now symmetry.
  - destruct (calcNext_new e s n Hn E) as [_ ->]. reflexivity.
Qed.

(** The delay a pass that found [n] leaves: the distance to the onset,
    less the time the pass took, and never below one millisecond. *)
Lemma calcNext_delay (e : Z) (s : Synth) (n : SynthNote) :
  findNext (m_pos s) (m_notes s) = Some n ->
  m_delay (calcNext e s) =
    let x := (begin n - m_pos s - inject_Z e / 1000)%Q in
    if Qle_bool x 0.001 then 0.001%Q else x.
Proof.
  intros Hn. unfold calcNext. rewrite Hn. cbn.
  destruct (Qne_bool (begin n) (m_noteBegin s)); cbn;
    match goal with |- context [Qle_bool ?a ?b] => destruct (Qle_bool a b) end;
    reflexivity.
Qed.


(** ** Running schedules *)

Lemma exec_app (acts1 acts2 : list action) :
  forall w,
    exec (acts1 ++ acts2) w =
      match exec acts1 w with
      | None => None
      | Some (w1, out1) =>
          match exec acts2 w1 with
          | None => None
          | Some (w2, out2) => Some (w2, out1 ++ out2)
          end
      end.
Proof.
  induction acts1 as [| a acts1 IH]; intros w; cbn [app exec].
  - destruct (exec acts2 w) as [[w2 out2] |]; reflexivity.
  - destruct (step a w) as [[w1 out1] |]; [| reflexivity].
    rewrite IH. destruct (exec acts1 w1) as [[w1' out1'] |]; [| reflexivity].
    destruct (exec acts2 w1') as [[w2 out2] |]; [| reflexivity].
    now rewrite app_assoc.
Qed.

(** A property kept by every silent step is kept along a schedule, which
    then emits nothing. *)
Lemma exec_invariant (P : action -> Prop) (I : World -> Prop) :
  (forall a w w' out,
      P a -> I w -> step a w = Some (w', out) -> out = [] /\ I w') ->
  forall acts w w' outs,
    Forall P acts -> I w -> exec acts w = Some (w', outs) ->
    outs = [] /\ I w'.
Proof.
  intros Hstep. induction acts as [| a acts IH]; intros w w' outs HP HI Hex.
  - cbn in Hex. injection Hex as <- <-. auto.
  - inversion HP as [| ? ? Ha Hacts]; subst. cbn [exec] in Hex.
    destruct (step a w) as [[w1 out1] |] eqn:Es; [| discriminate].
    destruct (exec acts w1) as [[w2 out2] |] eqn:Ee; [| discriminate].
    injection Hex as <- <-.
    destruct (Hstep a w w1 out1 Ha HI Es) as [-> HI1].
    destruct (IH w1 w2 out2 Hacts HI1 Ee) as [-> HI2]. auto.
Qed.

(** The fields only the worker writes. *)
Lemma tick_private (pos : Z) (notes : SynthNotes) (w : World) :
  m_delay (obj (tick pos notes w)) = m_delay (obj w) /\
  m_noteBegin (obj (tick pos notes w)) = m_noteBegin (obj w) /\
  m_soundData (obj (tick pos notes w)) = m_soundData (obj w) /\
  m_curBuffer (obj (tick pos notes w)) = m_curBuffer (obj w) /\
  m_quit (obj (tick pos notes w)) = m_quit (obj w).
Proof. unfold tick. destruct (isRunning (worker w)); cbn; auto. Qed.

(** Updates that arrive while the worker is between two of its
    statements move no statement and touch no private field. *)
Lemma exec_ticks (ts : list action) :
  forall w,
    Forall is_tick ts ->
    isRunning (worker w) = true -> worker w <> Waiting ->
    exists s,
      exec ts w = Some (mkWorld s (worker w), []) /\
      m_delay s = m_delay (obj w) /\
      m_noteBegin s = m_noteBegin (obj w) /\
      m_soundData s = m_soundData (obj w) /\
      m_curBuffer s = m_curBuffer (obj w) /\
      m_quit s = m_quit (obj w).
Proof.
  induction ts as [| a ts IH]; intros w Hts Hrun Hwait.
  - exists (obj w). destruct w. cbn. auto 6.
  - inversion Hts as [| ? ? Ha Hrest]; subst.
    destruct a as [pos notes | | |]; try contradiction.
    cbn [exec step].
    destruct (tick_private pos notes w) as (Hd & Hb & Hs & Hc & Hq).
    assert (Hplace : worker (tick pos notes w) = worker w).
    { unfold tick. rewrite Hrun. cbn. destruct (worker w); cbn; congruence. }
    destruct (IH (tick pos notes w) Hrest) as (s & Hex & Hd' & Hb' & Hs' & Hc' & Hq').
    + now rewrite Hplace.
    + now rewrite Hplace.
    + exists s. rewrite Hex, Hplace. cbn. repeat split; congruence.
Qed.

Lemma slot_put_other (i c : Z) (v : QByteArray) (d : QByteArray * QByteArray) :
  (i =? 0) <> (c =? 0) -> slot i (slot_put c v d) = slot i d.
Proof.
  unfold slot, slot_put. destruct (i =? 0), (c =? 0); cbn; congruence.
Qed.

(** A pass writes no slot but the active one. *)
Lemma calcNext_other_slot (e : Z) (s : Synth) (i : Z) :
  (i =? 0) <> (m_curBuffer s =? 0) ->
  slot i (m_soundData (calcNext e s)) = slot i (m_soundData s).
Proof.
  intros Hi. destruct (findNext (m_pos s) (m_notes s)) as [n |] eqn:Hn.
  - destruct (Qeq_dec (begin n) (m_noteBegin s)) as [E | E].
    + now destruct (calcNext_same e s n Hn E) as [-> _].
    + destruct (calcNext_new e s n Hn E) as [-> _]. now apply slot_put_other.
  - apply findNext_none in Hn. now rewrite (calcNext_none e s Hn).
Qed.

(** ** Rendering only on a new onset *)

Lemma keeps_step (n : SynthNote) (notes : SynthNotes) (D : QByteArray * QByteArray)
    (a : action) (w w' : World) (out : list QByteArray) :
  keeps n notes a ->
  (findNext (m_pos (obj w)) (m_notes (obj w)) = Some n /\
   (m_noteBegin (obj w) == begin n)%Q /\
   m_soundData (obj w) = D /\ ~ in_onset (worker w)) ->
  step a w = Some (w', out) ->
  out = [] /\
  (findNext (m_pos (obj w')) (m_notes (obj w')) = Some n /\
   (m_noteBegin (obj w') == begin n)%Q /\
   m_soundData (obj w') = D /\ ~ in_onset (worker w')).
Proof.
  intros Ha (Hn & Hb & HD & Hp) Hs.
  destruct a as [pos notes' | | | e]; cbn in Ha; try contradiction.
  - destruct Ha as [-> Hfind]. cbn in Hs. injection Hs as <- <-.
    split; [reflexivity |]. unfold tick.
    destruct (isRunning (worker w)); cbn; repeat split; auto.
    destruct (worker w); cbn in *; auto.
  - cbn in Hs. unfold run in Hs.
    assert (Hsame : (begin n == m_noteBegin (obj w))%Q) by (now symmetry).
    destruct (calcNext_same e (obj w) n Hn Hsame) as [Hdata Hbegin].
    destruct (calcNext_frame e (obj w)) as (Hpos & Hnotes & _).
    destruct (worker w) eqn:Ew; cbn in Hp; try contradiction; try discriminate;
      injection Hs as <- <-; cbn; (split; [reflexivity |]);
      rewrite ?Hpos, ?Hnotes, ?Hdata, ?Hbegin;
      repeat split; auto; destruct (m_quit (obj w)); cbn; auto.
Qed.

(** C4.  On every schedule pass that finds an upcoming note, a new buffer
    is rendered (into the active slot, with the stored onset updated) if
    and only if that note's onset differs from the stored last-rendered
    onset; in particular, under repeated tick calls with the note list
    unchanged and the same note still upcoming, no re-render occurs, only
    the delay is recomputed. *)
Theorem render_iff_new_onset (e : Z) (s : Synth) (n : SynthNote) :
  findNext (m_pos s) (m_notes s) = Some n ->
  ((begin n == m_noteBegin s)%Q ->
     m_soundData (calcNext e s) = m_soundData s /\
     m_noteBegin (calcNext e s) = m_noteBegin s) /\
  (~ (begin n == m_noteBegin s)%Q ->
     m_soundData (calcNext e s) =
       slot_put (m_curBuffer s) (renderTone (Z.rem (note n) 12) (length n))
         (m_soundData s) /\
     m_noteBegin (calcNext e s) = begin n) /\
  m_delay (calcNext e s) =
    (let x := (begin n - m_pos s - inject_Z e / 1000)%Q in
     if Qle_bool x 0.001 then 0.001%Q else x) /\
  (forall (p : place) (acts : list action) (w' : World) (outs : list QByteArray),
      ~ in_onset p ->
      Forall (keeps n (m_notes s)) acts ->
      exec acts (mkWorld (calcNext e s) p) = Some (w', outs) ->
      m_soundData (obj w') = m_soundData (calcNext e s) /\
      (m_noteBegin (obj w') == begin n)%Q /\
      outs = []).
Proof.
  intros Hn. split; [now apply calcNext_same |].
  split; [now apply calcNext_new |].
  split; [now apply calcNext_delay |].
  intros p acts w' outs Hp Hacts Hex.
  destruct (calcNext_frame e s) as (Hpos & Hnotes & _).
  pose proof (exec_invariant (keeps n (m_notes s)) _
                (keeps_step n (m_notes s) (m_soundData (calcNext e s))))
    as Hinv.
  destruct (Hinv acts (mkWorld (calcNext e s) p) w' outs Hacts) as [Hout HI].
  - cbn. rewrite Hpos, Hnotes. repeat split; auto.
    now apply calcNext_noteBegin.
  - exact Hex.
  - destruct HI as (_ & Hb & HD & _). auto.
Qed.

(** ** No upcoming note *)




(** ** The onset branch *)

(** C2.  Whenever the worker's timed wait expires naturally, the worker
    emits the active buffer, flips the active buffer index, advances its
    position by the fixed 0.2, re-runs the schedule pass and then forces
    the resulting delay up to at least 1 second; hence the delay with which
    it next enters the wait is never less than 1 second, whatever updates
    arrive in between. *)
Theorem onset_cooldown (w : World) :
  worker w = TimedOut ->
  m_quit (obj w) = false ->
  (forall e1 e2 e3 : Z,
      exec [Work e1; Work e2; Work e3] w =
        Some (mkWorld
                (let flipped :=
                   set_curBuffer ((m_curBuffer (obj w) + 1) mod 2) (obj w) in
                 let passed :=
                   calcNext e3 (set_pos (m_pos flipped + 0.2)%Q flipped) in
                 set_delay (std_max (m_delay passed) 1) passed)
                AtLoop,
              [slot (m_curBuffer (obj w)) (m_soundData (obj w))])) /\
  (forall (e1 e2 e3 e4 e5 : Z) (t1 t2 t3 t4 : list action),
      Forall is_tick t1 -> Forall is_tick t2 ->
      Forall is_tick t3 -> Forall is_tick t4 ->
      exists w',
        exec (Work e1 :: t1 ++ Work e2 :: t2 ++ Work e3 :: t3
                ++ Work e4 :: t4 ++ [Work e5]) w =
          Some (w', [slot (m_curBuffer (obj w)) (m_soundData (obj w))]) /\
        worker w' = Waiting /\
        (1 <= m_delay (obj w'))%Q /\
        m_curBuffer (obj w') = (m_curBuffer (obj w) + 1) mod 2).
Proof.
  destruct w as [s p]. cbn [worker obj]. intros -> Hq. split.
  - intros e1 e2 e3. cbn [exec step run worker obj]. rewrite Hq.
    cbn [exec step run worker obj app]. reflexivity.
  - intros e1 e2 e3 e4 e5 t1 t2 t3 t4 H1 H2 H3 H4.
    cbn [exec step run worker obj]. rewrite Hq.
    (* the check passed: about to emit *)
    destruct (exec_ticks t1 (mkWorld s Emitting) H1)
      as (s1 & Ex1 & _ & _ & Hs1 & Hc1 & Hq1); [reflexivity | discriminate |].
    rewrite exec_app, Ex1. cbn [exec step run worker obj].
    (* emitted and flipped: about to advance *)
    set (s2 := set_curBuffer ((m_curBuffer s1 + 1) mod 2) s1).
    destruct (exec_ticks t2 (mkWorld s2 Advancing) H2)
      as (s3 & Ex2 & _ & _ & _ & Hc3 & Hq3); [reflexivity | discriminate |].
    rewrite exec_app, Ex2. cbn [exec step run worker obj].
    (* advanced, passed and forced: at the loop test *)
    set (c := calcNext e3 (set_pos (m_pos s3 + 0.2)%Q s3)).
    set (s4 := set_delay (std_max (m_delay c) 1) c).
    destruct (calcNext_frame e3 (set_pos (m_pos s3 + 0.2)%Q s3))
      as (_ & _ & Hc4 & Hq4). fold c in Hc4, Hq4.
    destruct (exec_ticks t3 (mkWorld s4 AtLoop) H3)
      as (s5 & Ex3 & Hd5 & _ & _ & Hc5 & Hq5); [reflexivity | discriminate |].
    rewrite exec_app, Ex3. cbn [exec step run worker obj].
    assert (Hquit5 : m_quit s5 = false).
    { rewrite Hq5. unfold s4. cbn. rewrite Hq4. cbn. rewrite Hq3.
      unfold s2. cbn. rewrite Hq1. exact Hq. }
    rewrite Hquit5.
    destruct (exec_ticks t4 (mkWorld s5 Locking) H4)
      as (s6 & Ex4 & Hd6 & _ & _ & Hc6 & _); [reflexivity | discriminate |].
    rewrite exec_app, Ex4. cbn [exec step run worker obj app].
    exists (mkWorld s6 Waiting). cbn [worker obj] in *.
    split; [now rewrite Hs1, Hc1 |]. split; [reflexivity |]. split.
    + rewrite Hd6, Hd5. unfold s4. cbn. apply std_max_lower.
    + rewrite Hc6, Hc5. unfold s4. cbn. rewrite Hc4. cbn. rewrite Hc3.
      unfold s2. cbn. now rewrite Hc1.
Qed.

(** ** Buffer rotation *)

Lemma exec_preserves (I : World -> Prop) :
  (forall a w w' out, I w -> step a w = Some (w', out) -> I w') ->
  forall acts w w' outs, I w -> exec acts w = Some (w', outs) -> I w'.
Proof.
  intros Hstep. induction acts as [| a acts IH]; intros w w' outs HI Hex.
  - cbn in Hex. now injection Hex as <- <-.
  - cbn [exec] in Hex.
    destruct (step a w) as [[w1 out1] |] eqn:Es; [| discriminate].
    destruct (exec acts w1) as [[w2 out2] |] eqn:Ee; [| discriminate].
    injection Hex as <- <-. eapply IH; [| exact Ee]. eapply Hstep; eauto.
Qed.

Lemma exec_silent (I : World -> Prop) :
  (forall a w w', I w -> step a w = Some (w', []) -> I w') ->
  forall acts w w', I w -> exec acts w = Some (w', []) -> I w'.
Proof.
  intros Hstep. induction acts as [| a acts IH]; intros w w' HI Hex.
  - cbn in Hex. now injection Hex as <-.
  - cbn [exec] in Hex.
    destruct (step a w) as [[w1 out1] |] eqn:Es; [| discriminate].
    destruct (exec acts w1) as [[w2 out2] |] eqn:Ee; [| discriminate].
    injection Hex as <- Hout. apply app_eq_nil in Hout as [-> ->].
    eapply IH; [| exact Ee]. eapply Hstep; eauto.
Qed.

(** The active index is 0 or 1 in every state the program reaches. *)
Lemma curBuffer_binary (acts : list action) (w : World) (outs : list QByteArray) :
  exec acts World_new = Some (w, outs) ->
  m_curBuffer (obj w) = 0 \/ m_curBuffer (obj w) = 1.
Proof.
  apply (exec_preserves
           (fun w => m_curBuffer (obj w) = 0 \/ m_curBuffer (obj w) = 1)).
  - intros a w0 w1 out HI Hs. destruct a as [pos notes | | | e]; cbn in Hs.
    + injection Hs as <- <-.
      now destruct (tick_private pos notes w0) as (_ & _ & _ & -> & _).
    + injection Hs as <- <-. exact HI.
    + destruct (worker w0); try discriminate.
      destruct (may_time_out (obj w0)); [| discriminate].
      injection Hs as <- <-. exact HI.
    + unfold run in Hs.
      destruct (worker w0); try discriminate; injection Hs as <- <-; cbn;
        try exact HI.
      * now destruct (calcNext_frame e (obj w0)) as (_ & _ & -> & _).
      * now destruct (calcNext_frame e (obj w0)) as (_ & _ & -> & _).
      * destruct HI as [-> | ->]; cbn; auto.
      * now destruct (calcNext_frame e (set_pos (m_pos (obj w0) + 0.2)%Q (obj w0)))
          as (_ & _ & -> & _).
  - cbn. auto.
Qed.

(** A step that emits nothing leaves the active index and the slot that
    is not active as they are. *)
Lemma silent_step_keeps (c : Z) (X : QByteArray) (a : action) (w w' : World) :
  (c = 0 \/ c = 1) ->
  (m_curBuffer (obj w) = 1 - c /\ slot c (m_soundData (obj w)) = X) ->
  step a w = Some (w', []) ->
  m_curBuffer (obj w') = 1 - c /\ slot c (m_soundData (obj w')) = X.
Proof.
  intros Hc [Hcur Hslot] Hs.
  assert (Hother : (c =? 0) <> (m_curBuffer (obj w) =? 0))
    by (rewrite Hcur; destruct Hc as [-> | ->]; cbn; congruence).
  destruct a as [pos notes | | | e]; cbn in Hs.
  - injection Hs as <-.
    destruct (tick_private pos notes w) as (_ & _ & -> & -> & _). auto.
  - injection Hs as <-. auto.
  - destruct (worker w); try discriminate.
    destruct (may_time_out (obj w)); [| discriminate].
    injection Hs as <-. auto.
  - unfold run in Hs.
    destruct (worker w); try discriminate; injection Hs as <-; cbn; auto.
    + destruct (calcNext_frame e (obj w)) as (_ & _ & -> & _).
      rewrite calcNext_other_slot by exact Hother. auto.
    + destruct (calcNext_frame e (obj w)) as (_ & _ & -> & _).
      rewrite calcNext_other_slot by exact Hother. auto.
    + destruct (calcNext_frame e (set_pos (m_pos (obj w) + 0.2)%Q (obj w)))
        as (_ & _ & -> & _).
      rewrite calcNext_other_slot by exact Hother. auto.
Qed.

(** C5.  Two consecutive onset events emit from different buffer slots:
    the active index alternates between 0 and 1 at each onset, and the slot
    emitted at onset k is not rewritten by any render pass before onset
    k+1 has been emitted from the other slot, that is, until the render
    passes that prepare the buffer for onset k+2. *)
Theorem buffer_rotation (acts0 : list action) (w : World)
    (outs0 : list QByteArray) (e : Z) :
  exec acts0 World_new = Some (w, outs0) ->
  worker w = Emitting ->
  let c := m_curBuffer (obj w) in
  let emitted := slot c (m_soundData (obj w)) in
  exists w1,
    run e w = Some (w1, [emitted]) /\
    m_curBuffer (obj w1) = 1 - c /\
    forall (acts : list action) (w2 : World),
      exec acts w1 = Some (w2, []) ->
      m_curBuffer (obj w2) = 1 - c /\
      slot c (m_soundData (obj w2)) = emitted /\
      (worker w2 = Emitting ->
       forall e', exists w3,
         run e' w2 = Some (w3, [slot (1 - c) (m_soundData (obj w2))]) /\
         m_curBuffer (obj w3) = c).
Proof.
  intros Hreach Hw c emitted.
  assert (Hc : c = 0 \/ c = 1) by exact (curBuffer_binary _ _ _ Hreach).
  exists (mkWorld (set_curBuffer ((c + 1) mod 2) (obj w)) Advancing).
  assert (Hflip : (c + 1) mod 2 = 1 - c) by (destruct Hc as [-> | ->]; reflexivity).
  split; [unfold run; now rewrite Hw |].
  split; [cbn; exact Hflip |].
  intros acts w2 Hex.
  assert (HI : m_curBuffer (obj w2) = 1 - c /\
               slot c (m_soundData (obj w2)) = emitted).
  { revert Hex.
    apply (exec_silent
             (fun w => m_curBuffer (obj w) = 1 - c /\
                       slot c (m_soundData (obj w)) = emitted)).
    - intros a w0 w0' HI Hs. exact (silent_step_keeps c emitted a w0 w0' Hc HI Hs).
    - cbn. auto. }
  destruct HI as [Hcur Hslot]. split; [exact Hcur |]. split; [exact Hslot |].
  intros Hw2 e'.
  exists (mkWorld (set_curBuffer ((m_curBuffer (obj w2) + 1) mod 2) (obj w2)) Advancing).
  unfold run. rewrite Hw2, Hcur. split; [reflexivity |].
  cbn. destruct Hc as [-> | ->]; reflexivity.
Qed.

(** ** Shutdown *)

Lemma wakeOne_idempotent (p : place) : wakeOne (wakeOne p) = wakeOne p.
Proof. destruct p; reflexivity. Qed.

(** The flag is never cleared. *)
Lemma quit_stays (a : action) (w w' : World) (out : list QByteArray) :
  m_quit (obj w) = true -> step a w = Some (w', out) -> m_quit (obj w') = true.
Proof.
  intros Hq Hs. destruct a as [pos notes | | | e]; cbn in Hs.
  - injection Hs as <- <-.
    now destruct (tick_private pos notes w) as (_ & _ & _ & _ & ->).
  - injection Hs as <- <-. reflexivity.
  - destruct (worker w); try discriminate.
    destruct (may_time_out (obj w)); [| discriminate].
    now injection Hs as <- <-.
  - unfold run in Hs.
    destruct (worker w); try discriminate; injection Hs as <- <-; cbn;
      try exact Hq.
    + now destruct (calcNext_frame e (obj w)) as (_ & _ & _ & ->).
    + now destruct (calcNext_frame e (obj w)) as (_ & _ & _ & ->).
    + now destruct (calcNext_frame e (set_pos (m_pos (obj w) + 0.2)%Q (obj w)))
        as (_ & _ & _ & ->).
Qed.

(** With the flag set and the worker not already past its check, no step
    emits and none leads to the emit statement. *)
Lemma quit_step (a : action) (w w' : World) (out : list QByteArray) :
  m_quit (obj w) = true -> worker w <> Emitting ->
  step a w = Some (w', out) ->
  out = [] /\ m_quit (obj w') = true /\ worker w' <> Emitting.
Proof.
  intros Hq Hp Hs. pose proof (quit_stays a w w' out Hq Hs) as Hq'.
  destruct a as [pos notes | | | e]; cbn in Hs.
  - injection Hs as <- <-. repeat split; auto. unfold tick.
    destruct (isRunning (worker w)); cbn; [| discriminate].
    destruct (worker w); cbn; congruence.
  - injection Hs as <- <-. repeat split; auto. cbn.
    destruct (worker w); cbn; congruence.
  - destruct (worker w); try discriminate.
    destruct (may_time_out (obj w)); [| discriminate].
    injection Hs as <- <-. repeat split; auto. discriminate.
  - unfold run in Hs. rewrite Hq in Hs.
    destruct (worker w); try discriminate; try congruence;
      injection Hs as <- <-; repeat split; auto; discriminate.
Qed.

(** C6 (amended).  stop() sets the shutdown flag and wakes the worker if it
    is blocked in the wait, and is idempotent.  After any wake, and at the
    head of the loop, the worker tests the flag before acting and, finding
    it set, leaves the loop without emitting.  Hence once the flag is set
    it stays set and no buffer is emitted, except that a worker which had
    already passed its test after an expiry, and stood at the emit
    statement when the flag was set, still emits that one buffer; and a
    running worker that is neither blocked in the wait nor about to enter
    it has left the loop after at most three of its statements. *)
Theorem shutdown (w : World) :
  m_quit (obj (stop w)) = true /\
  (worker w = Waiting -> worker (stop w) = Woken) /\
  stop (stop w) = stop w /\
  (forall e : Z,
      m_quit (obj w) = true ->
      worker w = Woken \/ worker w = TimedOut \/ worker w = AtLoop ->
      run e w = Some (mkWorld (obj w) Finished, [])) /\
  (forall (acts : list action) (w' : World) (outs : list QByteArray),
      m_quit (obj w) = true ->
      exec acts w = Some (w', outs) ->
      m_quit (obj w') = true /\
      (worker w <> Emitting -> outs = []) /\
      (worker w = Emitting ->
       outs = [] \/ outs = [slot (m_curBuffer (obj w)) (m_soundData (obj w))])) /\
  (forall e1 e2 e3 : Z,
      m_quit (obj w) = true ->
      isRunning (worker w) = true ->
      worker w <> Locking -> worker w <> Waiting ->
      exists (k : nat) (w' : World) (outs : list QByteArray),
        (k <= 3)%nat /\
        exec (firstn k [Work e1; Work e2; Work e3]) w = Some (w', outs) /\
        worker w' = Finished).
Proof.
  split; [reflexivity |].
  split; [intros H; unfold stop; now rewrite H |].
  split; [unfold stop; cbn; now rewrite wakeOne_idempotent |].
  split; [| split].
  - intros e Hq Hp. unfold run. rewrite Hq.
    destruct Hp as [-> | [-> | ->]]; reflexivity.
  - intros acts. revert w.
    induction acts as [| a acts IH]; intros w w' outs Hq Hex.
    + cbn in Hex. injection Hex as <- <-. auto.
    + cbn [exec] in Hex.
      destruct (step a w) as [[w1 out1] |] eqn:Es; [| discriminate].
      destruct (exec acts w1) as [[w2 out2] |] eqn:Ee; [| discriminate].
      injection Hex as <- <-.
      pose proof (quit_stays a w w1 out1 Hq Es) as Hq1.
      destruct (IH w1 w2 out2 Hq1 Ee) as (Hq2 & Hrest & Hemit).
      split; [exact Hq2 |]. split.
      * intros Hp.
        destruct (quit_step a w w1 out1 Hq Hp Es) as (-> & _ & Hp1).
        now apply Hrest.
      * intros Hp. destruct a as [pos notes | | | e]; cbn in Es.
        -- injection Es as <- <-. cbn [app].
           assert (Hw1 : worker (tick pos notes w) = Emitting)
             by (unfold tick; rewrite Hp; reflexivity).
           destruct (tick_private pos notes w) as (_ & _ & Hs & Hc & _).
           rewrite <- Hs, <- Hc. now apply Hemit.
        -- injection Es as <- <-. cbn [app].
           assert (Hw1 : worker (stop w) = Emitting)
             by (unfold stop; rewrite Hp; reflexivity).
           now apply Hemit.
        -- rewrite Hp in Es. discriminate.
        -- unfold run in Es. rewrite Hp in Es. injection Es as <- <-.
           right. cbn [app]. f_equal.
           apply (proj1 (proj2 (IH _ w2 out2 Hq1 Ee))). discriminate.
  - destruct w as [s p]. cbn [obj worker]. intros e1 e2 e3 Hq Hrun HL HW.
    destruct p; try discriminate; try contradiction.
    + exists 2%nat. do 2 eexists. split; [lia |].
      cbn [firstn exec step run obj worker].
      destruct (calcNext_frame e1 s) as (_ & _ & _ & ->). rewrite Hq.
      cbn [app]. split; reflexivity.
    + exists 1%nat. do 2 eexists. split; [lia |].
      cbn [firstn exec step run obj worker]. rewrite Hq. split; reflexivity.
    + exists 1%nat. do 2 eexists. split; [lia |].
      cbn [firstn exec step run obj worker]. rewrite Hq. split; reflexivity.
    + exists 2%nat. do 2 eexists. split; [lia |].
      cbn [firstn exec step run obj worker].
      destruct (calcNext_frame e1 s) as (_ & _ & _ & ->). rewrite Hq.
      cbn [app]. split; reflexivity.
    + exists 1%nat. do 2 eexists. split; [lia |].
      cbn [firstn exec step run obj worker]. rewrite Hq. split; reflexivity.
    + exists 3%nat. do 2 eexists. split; [lia |].
      cbn [firstn exec step run obj worker m_pos set_curBuffer set_delay m_quit].
      destruct (calcNext_frame e2
                  (set_pos (m_pos s + 0.2)%Q
                     (set_curBuffer ((m_curBuffer s + 1) mod 2) s)))
        as (_ & _ & _ & Hk).
      cbn [m_pos set_curBuffer] in Hk. rewrite Hk.
      cbn [m_quit set_pos set_curBuffer]. rewrite Hq.
      cbn [app]. split; reflexivity.
    + exists 2%nat. do 2 eexists. split; [lia |].
      cbn [firstn exec step run obj worker set_delay m_quit].
      destruct (calcNext_frame e1 (set_pos (m_pos s + 0.2)%Q s)) as (_ & _ & _ & ->).
      cbn [m_quit set_pos]. rewrite Hq.
      cbn [app]. split; reflexivity.
Qed.

(** ** The initial value of the stored onset *)

Lemma Qtrunc_below (x : Q) (z : Z) :
  (0 <= x)%Q -> (x < inject_Z z)%Q -> Qtrunc x < z.
Proof.
  intros H0 Hz. rewrite Qtrunc_nonneg by exact H0.
  rewrite Zlt_Qlt. eapply Qle_lt_trans; [apply Qfloor_le | exact Hz].
Qed.

(** C10.  The last-rendered-onset field starts at 0.0, which is also a
    legitimate onset: for any note list whose first upcoming note has onset
    exactly 0.0, the first schedule pass renders nothing (both buffers stay
    empty), and the buffer emitted when the wait for that onset expires is
    the initial empty byte array. *)
Theorem first_onset_zero_emits_empty (pos : Z) (notes : SynthNotes)
    (n : SynthNote) (e1 e2 e3 e4 e5 : Z) :
  findNext (inject_Z pos / 1000)%Q notes = Some n ->
  (begin n == 0)%Q ->
  0 <= e1 -> - ULONG_MAX < pos -> 1 < ULONG_MAX ->
  m_noteBegin Synth_new = 0%Q /\
  (exists w1,
      exec [Tick pos notes; Work e1] World_new = Some (w1, []) /\
      worker w1 = AtLoop /\
      m_soundData (obj w1) = ([], [])) /\
  (exists w',
      exec [Tick pos notes; Work e1; Work e2; Work e3; Expire; Work e4; Work e5]
        World_new = Some (w', [[]])).
Proof.
  intros Hn Hzero He Hpos Hbig.
  set (s0 := set_notes notes (set_pos (inject_Z pos / 1000)%Q Synth_new)).
  assert (Hn0 : findNext (m_pos s0) (m_notes s0) = Some n) by exact Hn.
  assert (Hsame : (begin n == m_noteBegin s0)%Q) by exact Hzero.
  destruct (calcNext_same e1 s0 n Hn0 Hsame) as [Hdata _].
  destruct (calcNext_frame e1 s0) as (_ & _ & Hcur & Hquit).
  pose proof (calcNext_delay e1 s0 n Hn0) as Hdelay. cbn zeta in Hdelay.
  assert (Hexpire : may_time_out (calcNext e1 s0) = true).
  { unfold may_time_out. rewrite Hdelay. apply Z.ltb_lt.
    destruct (Qle_bool (begin n - m_pos s0 - inject_Z e1 / 1000) 0.001) eqn:E.
    - rewrite <- Z.ltb_lt. vm_compute Qtrunc. apply Z.ltb_lt. exact Hbig.
    - assert (Hx : (0.001 < begin n - m_pos s0 - inject_Z e1 / 1000)%Q).
      { apply Qnot_le_lt. intros H. apply Qle_bool_iff in H. congruence. }
      apply Qtrunc_below.
      + apply Qmult_le_0_compat; [| discriminate].
        apply Qlt_le_weak. eapply Qlt_trans; [| exact Hx]. reflexivity.
      + cbn [s0 m_pos set_notes set_pos]. rewrite Hzero.
        setoid_replace ((0 - inject_Z pos / 1000 - inject_Z e1 / 1000) * 1000)%Q
          with (inject_Z (- pos + - e1)) by (rewrite inject_Z_plus, !inject_Z_opp; field).
        rewrite <- Zlt_Qlt. lia. }
  split; [reflexivity |]. split.
  - exists (mkWorld (calcNext e1 s0) AtLoop). repeat split. exact Hdata.
  - exists (mkWorld (set_curBuffer ((m_curBuffer (calcNext e1 s0) + 1) mod 2)
                       (calcNext e1 s0)) Advancing).
    cbn [exec step run tick World_new obj worker isRunning].
    fold s0. cbn [exec step run obj worker]. rewrite Hquit.
    cbn [s0 m_quit set_notes set_pos Synth_new].
    cbn [exec step run obj worker]. rewrite Hexpire.
    cbn [exec step run obj worker]. rewrite Hquit.
    cbn [s0 m_quit set_notes set_pos Synth_new].
    cbn [exec step run obj worker app]. rewrite Hdata, Hcur. reflexivity.
Qed.

(** * Further properties *)

(** ** The header writer in general *)

Lemma raw_bytes_2 (x : Z) : exists b0 b1, raw_bytes 2 x = [b0; b1].
Proof. cbn [raw_bytes]. eauto. Qed.



(** X1.  Whatever format it is asked for, the header writer produces 44
    bytes whose fields decode, little-endian, to the channel count and the
    bits per sample (16-bit fields), the sample rate, the byte rate
    [bps * sr], the block align [bps], the data size [bps * samples] and
    the chunk size, which is the data size plus 36; the 32-bit quantities
    wrap modulo 2^32.  Bytes per sample is an integer quotient, so a frame
    of fewer than 8 bits has none and the data size is 0. *)
Theorem writeWavHeader_fields (bits ch sr samples : Z) :
  let h := writeWavHeader bits ch sr samples in
  let bps := unsigned (ch * bits) / 8 in
  let datasize := unsigned (bps * samples) in
  List.length h = 44%nat /\
  slice 0 4 h = chars "RIFF" /\
  le_value (slice 4 4 h) = unsigned (datasize + 36) /\
  slice 8 8 h = chars "WAVEfmt " /\
  le_value (slice 16 4 h) = 16 /\
  le_value (slice 20 2 h) = 1 /\
  le_value (slice 22 2 h) = ch mod 2 ^ 16 /\
  le_value (slice 24 4 h) = unsigned sr /\
  le_value (slice 28 4 h) = unsigned (bps * sr) /\
  le_value (slice 32 2 h) = bps mod 2 ^ 16 /\
  le_value (slice 34 2 h) = bits mod 2 ^ 16 /\
  slice 36 4 h = chars "data" /\
  le_value (slice 40 4 h) = datasize /\
  (unsigned (ch * bits) < 8 -> le_value (slice 40 4 h) = 0).
Proof.
  intros h bps datasize.
  assert (Hlen : List.length h = 44%nat) by apply writeWavHeader_length.
  assert (Hdec4 : forall x, le_value (raw_bytes 4 x) = unsigned x)
    by (intros x; apply le_value_raw_bytes).
  assert (Hdec2 : forall x, le_value (raw_bytes 2 x) = x mod 2 ^ 16)
    by (intros x; apply le_value_raw_bytes).
  assert (Hsize : unsigned (unsigned (unsigned (datasize + 0x2C) - 0x8))
                  = unsigned (datasize + 36)).
  { unfold unsigned. rewrite Z.mod_mod by lia.
    rewrite Zminus_mod_idemp_l. f_equal. lia. }
  assert (Hdata : unsigned datasize = datasize)
    by (unfold datasize, unsigned; apply Z.mod_mod; lia).
  assert (Hrate : unsigned (unsigned (bps * sr)) = unsigned (bps * sr))
    by (unfold unsigned; apply Z.mod_mod; lia).
  unfold h, writeWavHeader. fold bps. fold datasize.
  pose proof (Hdec4 (unsigned (unsigned (datasize + 0x2C) - 0x8))) as E1.
  pose proof (Hdec2 ch) as E2. pose proof (Hdec4 sr) as E3.
  pose proof (Hdec4 (unsigned (bps * sr))) as E4.
  pose proof (Hdec2 bps) as E5. pose proof (Hdec2 bits) as E6.
  pose proof (Hdec4 datasize) as E7.
  rewrite Hsize in E1. rewrite Hrate in E4. rewrite Hdata in E7.
  destruct (raw_bytes_4 (unsigned (unsigned (datasize + 0x2C) - 0x8)))
    as (a0 & a1 & a2 & a3 & Ha).
  destruct (raw_bytes_2 ch) as (c0 & c1 & Hc).
  destruct (raw_bytes_4 sr) as (r0 & r1 & r2 & r3 & Hr).
  destruct (raw_bytes_4 (unsigned (bps * sr))) as (y0 & y1 & y2 & y3 & Hy).
  destruct (raw_bytes_2 bps) as (p0 & p1 & Hp).
  destruct (raw_bytes_2 bits) as (q0 & q1 & Hq).
  destruct (raw_bytes_4 datasize) as (d0 & d1 & d2 & d3 & Hd).
  rewrite Ha in *. rewrite Hc in *. rewrite Hr in *. rewrite Hy in *.
  rewrite Hp in *. rewrite Hq in *. rewrite Hd in *.
  split; [exact Hlen |].
  split; [reflexivity |]. split; [exact E1 |]. split; [reflexivity |].
  split; [reflexivity |]. split; [reflexivity |]. split; [exact E2 |].
  split; [exact E3 |]. split; [exact E4 |]. split; [exact E5 |].
  split; [exact E6 |]. split; [reflexivity |]. split; [exact E7 |].
  intros Hsmall. change (le_value [d0; d1; d2; d3] = 0). rewrite E7.
  unfold datasize, bps.
  assert (H0 : 0 <= unsigned (ch * bits)) by (apply Z.mod_pos_bound; lia).
  rewrite Z.div_small by lia. reflexivity.
Qed.

(** ** The renderer at the edges *)



(** X3.  A duration that is zero or negative renders no sample at all: the
    buffer is the bare 44-byte header; and for a duration above -1/8000
    second that header announces 0 data bytes in a chunk of size 36. *)
Theorem nonpositive_duration_renders_header_only (note : Z) (length : Q) :
  (length <= 0)%Q ->
  renderTone note length =
    writeWavHeader 8 1 sampleRate (unsigned (Qtrunc (length * inject_Z sampleRate))) /\
  List.length (renderTone note length) = 44%nat /\
  ((- (1 # 8000) < length)%Q ->
     le_value (slice 40 4 (renderTone note length)) = 0 /\
     le_value (slice 4 4 (renderTone note length)) = 36).
Proof.
  intros Hneg.
  assert (Hlimit : (length * inject_Z sampleRate <= 0)%Q).
  { setoid_replace 0%Q with (0 * inject_Z sampleRate)%Q by ring.
    apply Qmult_le_compat_r; [exact Hneg | discriminate]. }
  assert (Hceil : Qceiling (length * inject_Z sampleRate) <= 0).
  { rewrite <- (Qceiling_Z 0). now apply Qceiling_resp_le. }
  assert (Hshape : renderTone note length =
            writeWavHeader 8 1 sampleRate
              (unsigned (Qtrunc (length * inject_Z sampleRate)))).
  { rewrite renderTone_shape.
    replace (Z.to_nat (Qceiling (length * inject_Z sampleRate))) with O by lia.
    cbn [tone]. apply app_nil_r. }
  split; [exact Hshape |]. split; [rewrite Hshape; apply writeWavHeader_length |].
  intros Hnear.
  assert (Hlow : -1 < Qceiling (length * inject_Z sampleRate)).
  { apply below_ceiling.
    setoid_replace (inject_Z (-1)) with (- (1 # 8000) * inject_Z sampleRate)%Q
      by reflexivity.
    apply Qmult_lt_compat_r; [reflexivity | exact Hnear]. }
  assert (Hzero : Qtrunc (length * inject_Z sampleRate) = 0)
    by (rewrite Qtrunc_nonpos by exact Hlimit; lia).
  rewrite Hshape, Hzero. change (unsigned 0) with 0.
  split; reflexivity.
Qed.


(** ** Notes below zero *)

(** [n.note % 12] keeps the sign of [n.note]. *)
Lemma pitch_class_range (n : Z) :
  -11 <= Z.rem n 12 <= 11 /\ (0 <= n -> 0 <= Z.rem n 12).
Proof.
  split.
  - pose proof (Z.rem_bound_abs n 12). lia.
  - intros H. apply Z.rem_nonneg; lia.
Qed.




(** ** The delay *)




(** ** What is emitted, and when *)

Lemma step_owes (a : action) (w w' : World) (out : list QByteArray) :
  step a w = Some (w', out) ->
  (List.length out + owes_emission (worker w')
   <= (if expired a then 1 else 0) + owes_emission (worker w))%nat.
Proof.
  intros Hs. destruct a as [pos notes | | | e]; cbn in Hs.
  - injection Hs as <- <-. unfold tick.
    destruct (worker w); cbn; lia.
  - injection Hs as <- <-. cbn. destruct (worker w); cbn; lia.
  - destruct (worker w); try discriminate.
    destruct (may_time_out (obj w)); [| discriminate].
    injection Hs as <- <-. cbn. lia.
  - unfold run in Hs.
    destruct (worker w); try discriminate; injection Hs as <- <-; cbn;
      try lia; destruct (m_quit (obj w)); cbn; lia.
Qed.

Lemma exec_owes (acts : list action) :
  forall (w w' : World) (outs : list QByteArray),
    exec acts w = Some (w', outs) ->
    (List.length outs + owes_emission (worker w')
     <= expiries acts + owes_emission (worker w))%nat.
Proof.
  induction acts as [| a acts IH]; intros w w' outs Hex.
  - cbn in Hex. injection Hex as <- <-. cbn. lia.
  - cbn [exec] in Hex.
    destruct (step a w) as [[w1 out1] |] eqn:Es; [| discriminate].
    destruct (exec acts w1) as [[w2 out2] |] eqn:Ee; [| discriminate].
    injection Hex as <- <-.
    pose proof (step_owes a w w1 out1 Es) as H1.
    pose proof (IH w1 w2 out2 Ee) as H2.
    rewrite length_app. unfold expiries in *. cbn [filter].
    destruct (expired a); cbn [List.length]; lia.
Qed.

(** X8.  A buffer is handed to [playBuffer] only after the wait has
    expired, once per expiry at most: along any schedule, from
    construction on, the worker emits no more buffers than waits have
    expired; updates and wake-ups alone never make it play. *)
Theorem emissions_need_expiries (acts : list action) (w : World)
    (outs : list QByteArray) :
  exec acts World_new = Some (w, outs) ->
  (List.length outs <= expiries acts)%nat /\
  (expiries acts = 0%nat -> outs = []).
Proof.
  intros Hex. pose proof (exec_owes acts World_new w outs Hex) as H.
  cbn [World_new worker owes_emission] in H.
  split; [lia |].
  intros H0. destruct outs; [reflexivity | cbn in H; lia].
Qed.

Lemma playable_tone (n : Z) (duration : Q) :
  playable (renderTone (Z.rem n 12) duration).
Proof.
  right. exists (Z.rem n 12), duration.
  split; [apply pitch_class_range | reflexivity].
Qed.

Lemma calcNext_playable (e : Z) (s : Synth) :
  playable (fst (m_soundData s)) /\ playable (snd (m_soundData s)) ->
  playable (fst (m_soundData (calcNext e s))) /\
  playable (snd (m_soundData (calcNext e s))).
Proof.
  intros [H0 H1]. destruct (findNext (m_pos s) (m_notes s)) as [n |] eqn:Hn.
  - destruct (Qeq_dec (begin n) (m_noteBegin s)) as [E | E].
    + destruct (calcNext_same e s n Hn E) as [-> _]. auto.
    + destruct (calcNext_new e s n Hn E) as [-> _]. unfold slot_put.
      destruct (m_curBuffer s =? 0); cbn; split; auto; apply playable_tone.
  - apply findNext_none in Hn. rewrite (calcNext_none e s Hn). cbn. auto.
Qed.

Lemma step_playable (a : action) (w w' : World) (out : list QByteArray) :
  playable (fst (m_soundData (obj w))) /\ playable (snd (m_soundData (obj w))) ->
  step a w = Some (w', out) ->
  (playable (fst (m_soundData (obj w'))) /\
   playable (snd (m_soundData (obj w')))) /\
  Forall playable out.
Proof.
  intros HI Hs. destruct a as [pos notes | | | e]; cbn in Hs.
  - injection Hs as <- <-.
    destruct (tick_private pos notes w) as (_ & _ & -> & _). auto.
  - injection Hs as <- <-. auto.
  - destruct (worker w); try discriminate.
    destruct (may_time_out (obj w)); [| discriminate].
    injection Hs as <- <-. auto.
  - unfold run in Hs.
    destruct (worker w); try discriminate; injection Hs as <- <-; cbn;
      (split; [| try apply Forall_nil]); try exact HI;
      try (now apply calcNext_playable).
    + apply Forall_cons; [| apply Forall_nil].
      unfold slot. destruct (m_curBuffer (obj w) =? 0); apply HI.
Qed.

(** X9.  Everything the worker ever hands to [playBuffer] is either the
    empty byte array of a slot not rendered yet, or one complete rendered
    tone (for a pitch class within -11..11): at least 44 bytes that start
    with "RIFF".  The same holds of both buffer slots in every reachable
    state. *)
Theorem emitted_buffers_are_tones (acts : list action) (w : World)
    (outs : list QByteArray) :
  exec acts World_new = Some (w, outs) ->
  Forall playable outs /\
  playable (fst (m_soundData (obj w))) /\
  playable (snd (m_soundData (obj w))) /\
  Forall (fun b => b = [] \/
                   ((44 <= List.length b)%nat /\ slice 0 4 b = chars "RIFF"))
         outs.
Proof.
  intros Hex.
  assert (H : forall acts w0 w1 outs,
             playable (fst (m_soundData (obj w0))) /\
             playable (snd (m_soundData (obj w0))) ->
             exec acts w0 = Some (w1, outs) ->
             (playable (fst (m_soundData (obj w1))) /\
              playable (snd (m_soundData (obj w1)))) /\
             Forall playable outs).
  { clear. induction acts as [| a acts IH]; intros w0 w1 outs HI Hex.
    - cbn in Hex. injection Hex as <- <-. auto.
    - cbn [exec] in Hex.
      destruct (step a w0) as [[w' out1] |] eqn:Es; [| discriminate].
      destruct (exec acts w') as [[w2 out2] |] eqn:Ee; [| discriminate].
      injection Hex as <- <-.
      destruct (step_playable a w0 w' out1 HI Es) as [HI' Hout1].
      destruct (IH w' w2 out2 HI' Ee) as [HI2 Hout2].
      split; [exact HI2 |]. apply Forall_app. auto. }
  destruct (H acts World_new w outs) as [[H0 H1] Houts];
    [cbn; split; left; reflexivity | exact Hex |].
  repeat split; try assumption.
  eapply Forall_impl; [| exact Houts].
  intros b [-> | (pitch & duration & _ & ->)]; [now left | right].
  rewrite renderTone_shape. split.
  - rewrite length_app, writeWavHeader_length. lia.
  - unfold slice. cbn [skipn]. rewrite firstn_app, writeWavHeader_length.
    cbn [Nat.sub firstn]. rewrite app_nil_r. reflexivity.
Qed.

(** ** Foreground calls *)

(** X10.  Of several updates only the last one counts, and an update and
    a stop commute: however the foreground's calls fall between two steps
    of the worker, what the worker then sees is the last position and note
    list, and whether stop was among them. *)
Theorem foreground_calls_compose (pos1 pos2 : Z) (notes1 notes2 : SynthNotes)
    (w : World) :
  tick pos2 notes2 (tick pos1 notes1 w) = tick pos2 notes2 w /\
  stop (tick pos1 notes1 w) = tick pos1 notes1 (stop w) /\
  tick pos2 notes2 (stop (tick pos1 notes1 w)) = stop (tick pos2 notes2 w).
Proof.
  destruct w as [s p]. unfold tick, stop.
  destruct p; cbn; repeat split; reflexivity.
Qed.


(** ** Ordering notes *)

(** X12.  [operator<] compares onsets only and is a strict weak order
    (irreflexive, asymmetric, transitive, with a transitive
    incomparability), as a sort needs; and a list in which no later note is
    less than an earlier one is exactly a list in ascending order of onset,
    the order the schedule pass relies on. *)
Theorem operator_lt_strict_weak_order :
  (forall a, operator_lt a a = false) /\
  (forall a b, operator_lt a b = true -> operator_lt b a = false) /\
  (forall a b c,
      operator_lt a b = true -> operator_lt b c = true -> operator_lt a c = true) /\
  (forall a b c,
      operator_lt a b = false -> operator_lt b a = false ->
      operator_lt b c = false -> operator_lt c b = false ->
      operator_lt a c = false /\ operator_lt c a = false) /\
  (forall notes,
      ascending notes <->
      ForallOrdPairs (fun a b => operator_lt b a = false) notes).
Proof.
  unfold operator_lt. repeat split.
  - intros a. apply Qlt_bool_false, Qle_refl.
  - intros a b H. apply Qlt_bool_true in H. now apply Qlt_bool_false, Qlt_le_weak.
  - intros a b c H1 H2. apply Qlt_bool_true in H1, H2.
    apply Qlt_bool_true. eapply Qlt_trans; eauto.
  - apply Qlt_bool_false in H, H0, H1, H2. apply Qlt_bool_false.
    eapply Qle_trans; eauto.
  - apply Qlt_bool_false in H, H0, H1, H2. apply Qlt_bool_false.
    eapply Qle_trans; eauto.
  - induction notes as [| n rest IH]; cbn [ascending]; intros H.
    + constructor.
    + destruct H as [Hn Hrest]. constructor; [| now apply IH].
      eapply Forall_impl; [| exact Hn]. intros m Hm. now apply Qlt_bool_false.
  - induction notes as [| n rest IH]; cbn [ascending]; intros H.
    + exact I.
    + inversion H as [| ? ? Hn Hrest]; subst. split; [| now apply IH].
      eapply Forall_impl; [| exact Hn]. intros m Hm. now apply Qlt_bool_false.
Qed.

End Collaborators.

(** * Closed instances *)









(** Witness of C4: the first pass over a note at 1 second renders it and
    stores its onset. *)
Lemma render_iff_new_onset_witness :
  findNext (m_pos (set_notes [note_at 1] Synth_new))
    (m_notes (set_notes [note_at 1] Synth_new)) = Some (note_at 1) /\
  (m_delay (calcNext clipped concert_a ULONG_MAX_32 0
              (set_notes [note_at 1] Synth_new)) == 1)%Q.
Proof.
  assert (H : findNext (m_pos (set_notes [note_at 1] Synth_new))
                (m_notes (set_notes [note_at 1] Synth_new)) = Some (note_at 1))
    by reflexivity.
  split; [exact H |].
  destruct (render_iff_new_onset clipped concert_a ULONG_MAX_32 0 _ _ H)
    as (_ & _ & Hdelay & _).
  rewrite Hdelay. reflexivity.
Defined.


(** Witness of C10: a first note at onset 0, played from position 0. *)
Lemma first_onset_zero_emits_empty_witness :
  findNext (inject_Z 0 / 1000)%Q [note_at 0] = Some (note_at 0) /\
  (begin (note_at 0) == 0)%Q /\ 0 <= 0 /\ - ULONG_MAX_32 < 0 /\ 1 < ULONG_MAX_32 /\
  exists w',
    exec clipped concert_a ULONG_MAX_32
      [Tick 0 [note_at 0]; Work 0; Work 0; Work 0; Expire; Work 0; Work 0]
      World_new = Some (w', [[]]).
Proof.
  assert (H1 : findNext (inject_Z 0 / 1000)%Q [note_at 0] = Some (note_at 0))
    by reflexivity.
  assert (H2 : (begin (note_at 0) == 0)%Q) by reflexivity.
  assert (H3 : 0 <= 0) by lia.
  assert (H4 : - ULONG_MAX_32 < 0) by reflexivity.
  assert (H5 : 1 < ULONG_MAX_32) by reflexivity.
  split; [exact H1 |]. split; [exact H2 |]. split; [exact H3 |].
  split; [exact H4 |]. split; [exact H5 |].
  exact (proj2 (proj2 (first_onset_zero_emits_empty clipped concert_a ULONG_MAX_32
                         0 [note_at 0] (note_at 0) 0 0 0 0 0 H1 H2 H3 H4 H5))).
Defined.

(** Witness of C2: the wait for a note at 1 second has expired; an update
    to position 0.3 arrives before the emission. *)
Lemma onset_cooldown_witness :
  exists w,
    exec clipped concert_a ULONG_MAX_32
      [Tick 0 [note_at 1]; Work 0; Work 0; Work 0; Expire] World_new
      = Some (w, []) /\
    worker w = TimedOut /\
    m_quit (obj w) = false /\
    exists w',
      exec clipped concert_a ULONG_MAX_32
        (Work 0 :: [Tick 300 [note_at 1]] ++ Work 0 :: [] ++ Work 0 :: []
           ++ Work 0 :: [] ++ [Work 0]) w
        = Some (w', [slot (m_curBuffer (obj w)) (m_soundData (obj w))]) /\
      worker w' = Waiting /\
      (1 <= m_delay (obj w'))%Q /\
      m_curBuffer (obj w') = (m_curBuffer (obj w) + 1) mod 2.
Proof.
  eexists. split; [vm_compute; reflexivity |].
  match goal with
  | |- worker ?W = TimedOut /\ _ =>
      split; [reflexivity |]; split; [reflexivity |];
      exact (proj2 (onset_cooldown clipped concert_a ULONG_MAX_32 W eq_refl eq_refl)
               0 0 0 0 0 [Tick 300 [note_at 1]] [] [] []
               (Forall_cons (Tick 300 [note_at 1]) I (Forall_nil _)) (Forall_nil _)
               (Forall_nil _) (Forall_nil _))
  end.
Defined.

(** Witness of C5: the first onset of a note at 1 second. *)
Lemma buffer_rotation_witness :
  exists w,
    exec clipped concert_a ULONG_MAX_32
      [Tick 0 [note_at 1]; Work 0; Work 0; Work 0; Expire; Work 0] World_new
      = Some (w, []) /\
    worker w = Emitting /\
    exists w1,
      run clipped concert_a ULONG_MAX_32 0 w
        = Some (w1, [slot 0 (m_soundData (obj w))]) /\
      m_curBuffer (obj w1) = 1.
Proof.
  eexists. split; [vm_compute; reflexivity |]. split; [reflexivity |].
  destruct (buffer_rotation clipped concert_a ULONG_MAX_32
              [Tick 0 [note_at 1]; Work 0; Work 0; Work 0; Expire; Work 0]
              _ [] 0 eq_refl eq_refl) as (w1 & Hrun & Hcur & _).
  exists w1. split; [exact Hrun | exact Hcur].
Defined.

(** C6 as stated fails: the worker has passed its test after the expiry
    of the wait when stop() sets the flag, and its next statement emits the
    buffer all the same. *)
Lemma emission_after_stop :
  exists w1 w2 b,
    exec clipped concert_a ULONG_MAX_32
      [Tick 0 [note_at 1]; Work 0; Work 0; Work 0; Expire; Work 0; Stop]
      World_new = Some (w1, []) /\
    m_quit (obj w1) = true /\
    exec clipped concert_a ULONG_MAX_32 [Work 0] w1 = Some (w2, [b]) /\
    List.length b = 52%nat.
Proof.
  eexists. eexists. eexists.
  split; [vm_compute; reflexivity |].
  split; [reflexivity |].
  split; [vm_compute; reflexivity |].
  reflexivity.
Qed.

(** * Further closed instances *)

(** Witness of X3: a note of no duration. *)
Lemma nonpositive_duration_renders_header_only_witness :
  (0 <= 0)%Q /\ List.length (renderTone clipped concert_a 0 0) = 44%nat.
Proof.
  assert (H : (0 <= 0)%Q) by discriminate.
  split; [exact H |].
  exact (proj1 (proj2 (nonpositive_duration_renders_header_only
                         clipped concert_a 0 0 H))).
Defined.





(** Witness of X8: one expiry, one emission. *)
Lemma emissions_need_expiries_witness :
  exists w outs,
    exec clipped concert_a ULONG_MAX_32
      [Tick 0 [note_at 1]; Work 0; Work 0; Work 0; Expire; Work 0; Work 0]
      World_new = Some (w, outs) /\
    (List.length outs <= 1)%nat.
Proof.
  eexists. eexists. split; [vm_compute; reflexivity |].
  match goal with
  | |- (List.length ?O <= _)%nat =>
      exact (proj1 (emissions_need_expiries clipped concert_a ULONG_MAX_32
                      [Tick 0 [note_at 1]; Work 0; Work 0; Work 0; Expire;
                       Work 0; Work 0] _ O eq_refl))
  end.
Defined.

(** Witness of X9: the buffer emitted at the onset of a note at 1 second. *)
Lemma emitted_buffers_are_tones_witness :
  exists w outs,
    exec clipped concert_a ULONG_MAX_32
      [Tick 0 [note_at 1]; Work 0; Work 0; Work 0; Expire; Work 0; Work 0]
      World_new = Some (w, outs) /\
    Forall (playable clipped concert_a) outs.
Proof.
  eexists. eexists. split; [vm_compute; reflexivity |].
  match goal with
  | |- Forall _ ?O =>
      exact (proj1 (emitted_buffers_are_tones clipped concert_a ULONG_MAX_32
                      [Tick 0 [note_at 1]; Work 0; Work 0; Work 0; Expire;
                       Work 0; Work 0] _ O eq_refl))
  end.
Defined.

